(** * ommnia_permission_tree: the permission tree and its algebra

    A shallow embedding of [ommnia_permission_tree/permission_tree.py].

    A [PermissionTreeData] is a Python [dict] from segment labels to
    child dicts.  Python dicts keep insertion order and never hold a key
    twice, so a dict is modelled as an association list in insertion
    order, and the "no key twice" discipline is the predicate [wf].
    The methods that mutate the receiver ([grant], [revoke]) are written
    in state-passing style: they return the receiver's new node graph.
    Node graphs are values here; no property below depends on two trees
    sharing a subtree. *)

From Stdlib Require Import String Ascii List Bool Arith Lia.
Import ListNotations.
Open Scope string_scope.
Open Scope list_scope.

Set Warnings "-register-all".

(** ** Python dictionaries with string keys *)

Definition dict (V : Type) : Type := list (string * V).

Definition dict_keys {V} (d : dict V) : list string := map fst d.

(** [d.get(k)]: [None] when [k not in d]. *)
Fixpoint dict_get {V} (k : string) (d : dict V) : option V :=
  match d with
  | [] => None
  | (k', v) :: d' => if String.eqb k k' then Some v else dict_get k d'
  end.

(** [d[k] = v]: an existing key keeps its position, a new key goes last. *)
Fixpoint dict_set {V} (k : string) (v : V) (d : dict V) : dict V :=
  match d with
  | [] => [(k, v)]
  | (k', v') :: d' =>
      if String.eqb k k' then (k, v) :: d' else (k', v') :: dict_set k v d'
  end.

(** [del d[k]] *)
Fixpoint dict_del {V} (k : string) (d : dict V) : dict V :=
  match d with
  | [] => []
  | (k', v') :: d' =>
      if String.eqb k k' then d' else (k', v') :: dict_del k d'
  end.

(** No key twice. *)
Fixpoint nodupb (l : list string) : bool :=
  match l with
  | [] => true
  | x :: r => negb (existsb (String.eqb x) r) && nodupb r
  end.

(** ** Splitting and joining dotted paths *)

Definition dot : ascii := "."%char.

(** [permission.split(".")]: never the empty list; consecutive, leading
    and trailing separators give empty segments. *)
Fixpoint split_dot (s : string) : list string :=
  match s with
  | EmptyString => [EmptyString]
  | String c rest =>
      if Ascii.eqb c dot then EmptyString :: split_dot rest
      else match split_dot rest with
           | [] => [String c EmptyString]
           | seg :: segs => String c seg :: segs
           end
  end.

(** [".".join(segments)] *)
Definition join_dot (segments : list string) : string :=
  String.concat "." segments.

Fixpoint has_dot (s : string) : bool :=
  match s with
  | EmptyString => false
  | String c rest => Ascii.eqb c dot || has_dot rest
  end.

(** ** The node graph *)

Inductive PermissionTreeData : Type :=
| Dict (items : dict PermissionTreeData).

Definition items (data : PermissionTreeData) : dict PermissionTreeData :=
  match data with Dict l => l end.

(** [{}] *)
Definition empty_dict : PermissionTreeData := Dict [].

(** [data == {}] *)
Definition is_empty (data : PermissionTreeData) : bool :=
  match items data with [] => true | _ :: _ => false end.

(** [data.get(key)] *)
Definition lookup (key : string) (data : PermissionTreeData)
  : option PermissionTreeData :=
  dict_get key (items data).

(** [key in result and result[key] == {}] *)
Definition is_wildcard_at (key : string) (result : dict PermissionTreeData)
  : bool :=
  match dict_get key result with
  | Some v => is_empty v
  | None => false
  end.

(** A node graph is a tree of dicts: no node holds a key twice. *)
Fixpoint wf (data : PermissionTreeData) : bool :=
  match data with
  | Dict l => nodupb (map fst l) && forallb (fun '(_, child) => wf child) l
  end.

(** Section 3 of the specification: no segment label contains a dot. *)
Fixpoint dot_free (data : PermissionTreeData) : bool :=
  match data with
  | Dict l =>
      forallb (fun '(key, child) => negb (has_dot key) && dot_free child) l
  end.

(** The dataclass: one field, the root node. *)
Record PermissionTree : Type := mkPermissionTree {
  _data : PermissionTreeData
}.

(** [PermissionTree()]: the default factory gives an empty root. *)
Definition fresh : PermissionTree := mkPermissionTree empty_dict.

(** *** union *)

(** First loop of [inner_union], [for key in left], one iteration;
    [rec] is [inner_union] itself. *)
Definition union_left_body
  (rec : PermissionTreeData -> PermissionTreeData -> PermissionTreeData)
  (right : PermissionTreeData)
  (result : dict PermissionTreeData) (entry : string * PermissionTreeData)
  : dict PermissionTreeData :=
  let '(key, left_key) := entry in
  if is_wildcard_at key result then result
  else match lookup key right with
       | None => dict_set key left_key result
       | Some right_key =>
           if is_empty right_key then dict_set key empty_dict result
           else dict_set key (rec left_key right_key) result
       end.

(** Second loop, [for key in right], one iteration.  [left_at] answers
    [left.get(key)] together with [inner_union(left[key], _)]. *)
Definition union_right_body
  (left_at : string ->
             option (PermissionTreeData *
                     (PermissionTreeData -> PermissionTreeData)))
  (result : dict PermissionTreeData) (entry : string * PermissionTreeData)
  : dict PermissionTreeData :=
  let '(key, right_key) := entry in
  if is_wildcard_at key result then result
  else match left_at key with
       | None => dict_set key right_key result
       | Some (left_key, union_left_key) =>
           if is_empty left_key then dict_set key empty_dict result
           else dict_set key (union_left_key right_key) result
       end.

(** The recursion is structural on [left]: the second loop reaches
    [inner_union(left[key], right[key])] through a table built from the
    entries of [left] ([inner_union_eq] below gives the equation in the
    shape of the source). *)
Fixpoint inner_union (left right : PermissionTreeData) {struct left}
  : PermissionTreeData :=
  match left with
  | Dict litems =>
      let table :=
        map (fun '(key, left_key) => (key, (left_key, inner_union left_key)))
            litems in
      let result := fold_left (union_left_body inner_union right) litems [] in
      Dict (fold_left (union_right_body (fun key => dict_get key table))
                      (items right) result)
  end.

Definition union (self other : PermissionTree) : PermissionTree :=
  mkPermissionTree (inner_union (_data self) (_data other)).

(** *** check *)

(** The loop of [check], on the segments still to walk. *)
Fixpoint check_walk (segments : list string) (data : PermissionTreeData)
  : bool :=
  match segments with
  | [] => is_empty data
  | segment :: rest =>
      match lookup segment data with
      | None => is_empty data
      | Some child => check_walk rest child
      end
  end.

Definition check (self : PermissionTree) (permission : string) : bool :=
  check_walk (split_dot permission) (_data self).

(** *** grant *)

(** The loop of [grant]; [last] is [segments_iter.peek(None) is None].
    The walk mutates the node it stands on, so the new child is written
    back into its parent, at the key's position. *)
Fixpoint grant_walk (segments : list string) (data : PermissionTreeData)
  : PermissionTreeData :=
  match segments with
  | [] => data
  | segment :: rest =>
      let last := match rest with [] => true | _ :: _ => false end in
      match lookup segment data with
      | None =>
          Dict (dict_set segment (grant_walk rest empty_dict) (items data))
      | Some child =>
          if last
          then Dict (dict_set segment (grant_walk rest empty_dict)
                              (items data))
          else Dict (dict_set segment (grant_walk rest child) (items data))
      end
  end.

Definition grant (self : PermissionTree) (permission : list string)
  : PermissionTree :=
  mkPermissionTree (grant_walk permission (_data self)).

Definition grant_from_string (self : PermissionTree) (permission : string)
  : PermissionTree :=
  grant self (split_dot permission).

Definition grant_many_from_strings
  (self : PermissionTree) (permissions : list string) : PermissionTree :=
  fold_left grant_from_string permissions self.

(** *** revoke *)

(** The loop of [revoke]; [final] is [segments[-1]], and [last] compares
    the segment's text with it.  Returns the answer and the node as the
    walk leaves it. *)
Fixpoint revoke_walk (final : string) (segments : list string)
  (data : PermissionTreeData) : bool * PermissionTreeData :=
  match segments with
  | [] => (true, data)
  | segment :: rest =>
      match lookup segment data with
      | None => (false, data)
      | Some child =>
          let last := String.eqb segment final in
          if last then (true, Dict (dict_del segment (items data)))
          else
            let '(answer, child') := revoke_walk final rest child in
            (answer, Dict (dict_set segment child' (items data)))
      end
  end.

Definition revoke (self : PermissionTree) (permission : string)
  : bool * PermissionTree :=
  let segments := split_dot permission in
  let '(answer, data) :=
    revoke_walk (List.last segments EmptyString) segments (_data self) in
  (answer, mkPermissionTree data).

(** *** contains *)

(** The loop [for key in b], on the entries still to visit; [rec] is
    [inner_contains] itself. *)
Section ContainsLoop.
Variable rec : PermissionTreeData -> PermissionTreeData -> bool.
Variable a : PermissionTreeData.

Fixpoint contains_loop (l : dict PermissionTreeData) : bool :=
  match l with
  | [] => true
  | (key, b_key) :: l' =>
      match lookup key a with
      | None => false
      | Some a_key =>
          if is_empty a_key then contains_loop l'
          else if is_empty b_key then false
          else if negb (rec a_key b_key) then false
          else contains_loop l'
      end
  end.
End ContainsLoop.

Fixpoint inner_contains (a b : PermissionTreeData) {struct b} : bool :=
  match b with
  | Dict bitems => contains_loop inner_contains a bitems
  end.

Definition contains (self other : PermissionTree) : bool :=
  inner_contains (_data self) (_data other).

(** *** intersect *)

(** One iteration of [for key in left]; [rec] is [inner_intersect]. *)
Definition intersect_body
  (rec : PermissionTreeData -> PermissionTreeData -> PermissionTreeData)
  (right : PermissionTreeData)
  (result : dict PermissionTreeData) (entry : string * PermissionTreeData)
  : dict PermissionTreeData :=
  let '(key, left_key) := entry in
  match lookup key right with
  | None => result
  | Some right_key =>
      if is_empty left_key then dict_set key right_key result
      else dict_set key (rec left_key right_key) result
  end.

Fixpoint inner_intersect (left right : PermissionTreeData) {struct left}
  : PermissionTreeData :=
  match left with
  | Dict litems =>
      Dict (fold_left (intersect_body inner_intersect right) litems [])
  end.

Definition intersect (self right : PermissionTree) : PermissionTree :=
  mkPermissionTree (inner_intersect (_data self) (_data right)).

(** *** to_strings *)

(** The generator, as the list of what it yields, in order. *)
Fixpoint inner_to_strings (data : PermissionTreeData) (segments : list string)
  : list string :=
  match data with
  | Dict l =>
      (if is_empty data && Nat.ltb 0 (List.length segments)
       then [join_dot segments] else [])
      ++ flat_map
           (fun '(key, child) => inner_to_strings child (segments ++ [key]))
           l
  end.

Definition to_strings (self : PermissionTree) : list string :=
  inner_to_strings (_data self) [].

(** ** Definitions used in the statements and proofs *)

(** *** What one loop iteration on [key] leaves at [result[key]] *)

Definition intersect_upd (right : PermissionTreeData) (key : string)
  (left_key : PermissionTreeData) (old : option PermissionTreeData)
  : option PermissionTreeData :=
  match lookup key right with
  | None => old
  | Some right_key =>
      Some (if is_empty left_key then right_key
            else inner_intersect left_key right_key)
  end.

(** [key in result and result[key] == {}], on the old entry. *)
Definition is_wildcard (old : option PermissionTreeData) : bool :=
  match old with Some v => is_empty v | None => false end.

Definition union_left_upd (right : PermissionTreeData) (key : string)
  (left_key : PermissionTreeData) (old : option PermissionTreeData)
  : option PermissionTreeData :=
  if is_wildcard old then old
  else match lookup key right with
       | None => Some left_key
       | Some right_key =>
           Some (if is_empty right_key then empty_dict
                 else inner_union left_key right_key)
       end.

Definition union_right_upd (left : PermissionTreeData) (key : string)
  (right_key : PermissionTreeData) (old : option PermissionTreeData)
  : option PermissionTreeData :=
  if is_wildcard old then old
  else match lookup key left with
       | None => Some right_key
       | Some left_key =>
           Some (if is_empty left_key then empty_dict
                 else inner_union left_key right_key)
       end.

(** [left.get(key)], paired with [inner_union(left[key], _)]. *)
Definition left_at (left : PermissionTreeData) (key : string)
  : option (PermissionTreeData * (PermissionTreeData -> PermissionTreeData)) :=
  option_map (fun left_key => (left_key, inner_union left_key))
             (lookup key left).

(** *** Leaves *)

(** The paths from a node to the wildcard leaves below it, in traversal
    order; the empty node is its own leaf. *)
Fixpoint leaves (data : PermissionTreeData) : list (list string) :=
  match data with
  | Dict l =>
      match l with
      | [] => [[]]
      | _ :: _ =>
          flat_map (fun '(key, child) => map (cons key) (leaves child)) l
      end
  end.

(** Granting a list of segment sequences, in order. *)
Definition grant_all (paths : list (list string)) (data : PermissionTreeData)
  : PermissionTreeData :=
  fold_left (fun data path => grant_walk path data) paths data.

(** [d[key]] when present, a new empty node otherwise. *)
Definition child_or_empty (key : string) (d : dict PermissionTreeData)
  : PermissionTreeData :=
  match dict_get key d with Some child => child | None => empty_dict end.

(** *** Example trees *)

(** [test_merge]'s two trees. *)
Definition first_tree : PermissionTree :=
  grant_many_from_strings fresh
    ["auth.users.create"; "auth.users.update"; "auth.groups.read";
     "auth.permissions"].

Definition second_tree : PermissionTree :=
  grant_many_from_strings fresh
    ["auth.permissions.create"; "auth.permissions.update";
     "auth.groups.create"; "auth.users"].

(** [{"a": {"b": {}}}], [{"a": {}}] and [{"x": {}}] *)
Definition tree_a_b : PermissionTree :=
  mkPermissionTree (Dict [("a", Dict [("b", empty_dict)])]).

Definition tree_a : PermissionTree :=
  mkPermissionTree (Dict [("a", empty_dict)]).

Definition tree_x : PermissionTree :=
  mkPermissionTree (Dict [("x", empty_dict)]).

(** [{"a": {"b": {}}, "x": {}}] *)
Definition tree_a_b_x : PermissionTree :=
  mkPermissionTree (Dict [("a", Dict [("b", empty_dict)]); ("x", empty_dict)]).

(** [{"a": {"b": {"a": {}}}}] *)
Definition tree_a_b_a : PermissionTree :=
  mkPermissionTree (Dict [("a", Dict [("b", Dict [("a", empty_dict)])])]).

(** *** revoke, by position *)

(** Following the specification's words (section 4.3), to compare with
    [revoke_walk]: the final segment is the one in the last position. *)
Fixpoint revoke_walk_by_position (segments : list string)
  (data : PermissionTreeData) : bool * PermissionTreeData :=
  match segments with
  | [] => (true, data)
  | segment :: rest =>
      match lookup segment data with
      | None => (false, data)
      | Some child =>
          match rest with
          | [] => (true, Dict (dict_del segment (items data)))
          | _ :: _ =>
              let '(answer, child') := revoke_walk_by_position rest child in
              (answer, Dict (dict_set segment child' (items data)))
          end
      end
  end.

Definition revoke_by_position (self : PermissionTree) (permission : string)
  : bool * PermissionTree :=
  let '(answer, data) :=
    revoke_walk_by_position (split_dot permission) (_data self) in
  (answer, mkPermissionTree data).

(** The node [revoke_walk] deletes from, as it is before the deletion. *)
Fixpoint revoke_site (final : string) (segments : list string)
  (data : PermissionTreeData) : option PermissionTreeData :=
  match segments with
  | [] => None
  | segment :: rest =>
      match lookup segment data with
      | None => None
      | Some child =>
          if String.eqb segment final then Some data
          else revoke_site final rest child
      end
  end.

(** ** The remaining methods *)

(** *** check_any, check_all *)

(** The iterable, as the list of what it yields. *)
Fixpoint check_any (self : PermissionTree) (permissions : list string)
  : bool :=
  match permissions with
  | [] => false
  | permission :: rest =>
      if check self permission then true else check_any self rest
  end.

Fixpoint check_all (self : PermissionTree) (permissions : list string)
  : bool :=
  match permissions with
  | [] => true
  | permission :: rest =>
      if negb (check self permission) then false else check_all self rest
  end.

(** *** revoke_any, revoke_all *)

(** Each [revoke] acts on the tree as the one before left it. *)
Fixpoint revoke_any (self : PermissionTree) (permissions : list string)
  : bool * PermissionTree :=
  match permissions with
  | [] => (false, self)
  | permission :: rest =>
      let '(answer, self') := revoke self permission in
      if answer then (true, self') else revoke_any self' rest
  end.


(** *** names *)

(** The generator, as the list of what it yields, in order. *)
Fixpoint inner_names (data : PermissionTreeData) : list string :=
  match data with
  | Dict l => flat_map (fun '(key, child) => key :: inner_names child) l
  end.

Definition names (self : PermissionTree) : list string :=
  inner_names (_data self).

(** The first segment of a dotted path. *)
Definition first_segment (permission : string) : string :=
  List.hd EmptyString (split_dot permission).

(** * Properties *)

(** ** Dictionaries *)

Section DictFacts.
Variable V : Type.
Implicit Types (d : dict V) (k : string) (v : V).

Lemma dict_get_set_same k v d : dict_get k (dict_set k v d) = Some v.
Proof.
  induction d as [|[k' v'] d IH]; simpl.
  - now rewrite String.eqb_refl.
  - destruct (String.eqb k k') eqn:E; simpl; rewrite ?E; auto.
    now rewrite String.eqb_refl.
Qed.

Lemma dict_get_set_other k k' v d :
  k' <> k -> dict_get k' (dict_set k v d) = dict_get k' d.
Proof.
  intros Hne. induction d as [|[k0 v0] d IH]; simpl.
  - apply String.eqb_neq in Hne. now rewrite Hne.
  - destruct (String.eqb k k0) eqn:E; simpl.
    + apply String.eqb_eq in E. subst k0.
      apply String.eqb_neq in Hne. now rewrite Hne.
    + now rewrite IH.
Qed.

Lemma dict_set_set k v v' d : dict_set k v' (dict_set k v d) = dict_set k v' d.
Proof.
  induction d as [|[k0 v0] d IH]; simpl.
  - now rewrite String.eqb_refl.
  - destruct (String.eqb k k0) eqn:E; simpl; rewrite ?E.
    + now rewrite String.eqb_refl.
    + now rewrite IH.
Qed.

Lemma dict_set_get_same k v d : dict_get k d = Some v -> dict_set k v d = d.
Proof.
  induction d as [|[k0 v0] d IH]; simpl; [discriminate|].
  destruct (String.eqb k k0) eqn:E.
  - apply String.eqb_eq in E. subst. now intros [= ->].
  - intros H. now rewrite IH.
Qed.

Lemma dict_get_none k d : dict_get k d = None <-> ~ In k (dict_keys d).
Proof.
  induction d as [|[k0 v0] d IH]; simpl.
  - tauto.
  - destruct (String.eqb k k0) eqn:E.
    + apply String.eqb_eq in E. subst. split; [discriminate | tauto].
    + apply String.eqb_neq in E. rewrite IH. split.
      * intros H [H1|H1]; [congruence | tauto].
      * tauto.
Qed.

Lemma dict_get_in k v d : dict_get k d = Some v -> In (k, v) d.
Proof.
  induction d as [|[k0 v0] d IH]; simpl; [discriminate|].
  destruct (String.eqb k k0) eqn:E.
  - apply String.eqb_eq in E. subst. intros [= ->]. now left.
  - intros H. right. auto.
Qed.

Lemma dict_in_get k v d :
  NoDup (dict_keys d) -> In (k, v) d -> dict_get k d = Some v.
Proof.
  induction d as [|[k0 v0] d IH]; simpl; [tauto|].
  intros Hnd [H|H].
  - inversion H; subst. now rewrite String.eqb_refl.
  - inversion Hnd as [|? ? Hnotin Hnd']; subst.
    destruct (String.eqb k k0) eqn:E.
    + apply String.eqb_eq in E. subst k0. exfalso. apply Hnotin.
      change k with (fst (k, v)). now apply in_map.
    + auto.
Qed.

Lemma dict_set_new k v d : dict_get k d = None -> dict_set k v d = d ++ [(k, v)].
Proof.
  induction d as [|[k0 v0] d IH]; simpl; auto.
  destruct (String.eqb k k0) eqn:E; [discriminate|].
  intros H. now rewrite IH.
Qed.

Lemma dict_get_app_new k v d :
  dict_get k d = None -> dict_get k (d ++ [(k, v)]) = Some v.
Proof.
  intros H. rewrite <- (dict_set_new k v d H). apply dict_get_set_same.
Qed.

End DictFacts.

(** A loop [for key in l: ...] whose body touches [result[key]] only, and
    writes there a value that depends on the old [result[key]] alone.
    With the keys of [l] pairwise different, the final [result[k]] is
    that of the one iteration on [k]. *)
Section Loop.
Variables V A : Type.
Variable body : dict V -> string * A -> dict V.
Variable upd : string -> A -> option V -> option V.
Hypothesis body_other : forall acc k a k',
  k' <> k -> dict_get k' (body acc (k, a)) = dict_get k' acc.
Hypothesis body_same : forall acc k a,
  dict_get k (body acc (k, a)) = upd k a (dict_get k acc).

Lemma loop_get k (l : dict A) : forall acc,
  NoDup (dict_keys l) ->
  dict_get k (fold_left body l acc) =
    match dict_get k l with
    | Some a => upd k a (dict_get k acc)
    | None => dict_get k acc
    end.
Proof.
  induction l as [|[k0 a0] l IH]; intros acc Hnd; simpl; auto.
  inversion Hnd as [|? ? Hnotin Hnd']; subst.
  rewrite (IH _ Hnd').
  destruct (String.eqb k k0) eqn:E.
  - apply String.eqb_eq in E. subst k0.
    destruct (dict_get k l) eqn:F.
    + exfalso. apply Hnotin.
      apply dict_get_in in F. change k with (fst (k, a)). now apply in_map.
    + apply body_same.
  - apply String.eqb_neq in E. now rewrite (body_other acc k0 a0 k E).
Qed.
End Loop.

Lemma existsb_eqb_In x l : existsb (String.eqb x) l = true <-> In x l.
Proof.
  rewrite existsb_exists. split.
  - intros [y [Hy E]]. apply String.eqb_eq in E. now subst.
  - intros H. exists x. split; auto. apply String.eqb_refl.
Qed.

Lemma nodupb_NoDup l : nodupb l = true <-> NoDup l.
Proof.
  induction l as [|x l IH]; simpl.
  - split; [constructor | reflexivity].
  - rewrite andb_true_iff, negb_true_iff, IH. split.
    + intros [H1 H2]. constructor; auto.
      intros Hin. apply existsb_eqb_In in Hin. congruence.
    + intros H. inversion H as [|? ? Hnotin Hnd]; subst. split; auto.
      destruct (existsb (String.eqb x) l) eqn:E; auto.
      apply existsb_eqb_In in E. tauto.
Qed.

(** ** Node graphs *)

(** Induction on a node graph, with the hypothesis for every child. *)
Lemma PermissionTreeData_rect_children (P : PermissionTreeData -> Prop) :
  (forall l, Forall (fun entry => P (snd entry)) l -> P (Dict l)) ->
  forall data, P data.
Proof.
  intros step. fix IH 1. intros [l]. apply step.
  induction l as [|[key child] l IHl]; constructor; simpl; auto.
Qed.

Lemma wf_Dict l :
  wf (Dict l) = true <->
  NoDup (dict_keys l) /\ Forall (fun entry => wf (snd entry) = true) l.
Proof.
  simpl. rewrite andb_true_iff, nodupb_NoDup, forallb_forall, Forall_forall.
  unfold dict_keys. split; intros [H1 H2]; split; auto.
  - intros [k c] Hin. apply (H2 _ Hin).
  - intros [k c] Hin. apply (H2 _ Hin).
Qed.

Lemma wf_NoDup data : wf data = true -> NoDup (dict_keys (items data)).
Proof. destruct data as [l]. intros H. now apply wf_Dict in H. Qed.

Lemma wf_lookup data key child :
  wf data = true -> lookup key data = Some child -> wf child = true.
Proof.
  destruct data as [l]. intros H Hget. apply wf_Dict in H as [_ H].
  rewrite Forall_forall in H. apply dict_get_in in Hget.
  apply (H _ Hget).
Qed.

Lemma is_empty_lookup data key : is_empty data = true -> lookup key data = None.
Proof. destruct data as [[|e l]]; [reflexivity | discriminate]. Qed.

Lemma is_empty_eq data : is_empty data = true -> data = empty_dict.
Proof. destruct data as [[|e l]]; [reflexivity | discriminate]. Qed.

Lemma split_dot_not_nil s : split_dot s <> [].
Proof.
  destruct s as [|c s]; simpl; [discriminate|].
  destruct (Ascii.eqb c dot); [discriminate|].
  destruct (split_dot s); discriminate.
Qed.

(** A wildcard node grants every walk. *)
Lemma check_walk_empty segments data :
  is_empty data = true -> check_walk segments data = true.
Proof.
  intros H. destruct segments as [|segment rest]; simpl; auto.
  now rewrite (is_empty_lookup data segment H).
Qed.

(** ** check on a fresh tree *)

(** C5. Root-wildcard edge case: a freshly constructed empty tree
    answers [check(P) == true] for every dotted-path string [P], the
    empty string included. *)
Theorem check_fresh_true : forall P : string, check fresh P = true.
Proof.
  intros P. unfold check. now apply check_walk_empty.
Qed.

(** ** contains *)

Lemma contains_loop_refl a l :
  Forall (fun entry =>
            lookup (fst entry) a = Some (snd entry) /\
            inner_contains (snd entry) (snd entry) = true) l ->
  contains_loop inner_contains a l = true.
Proof.
  induction 1 as [|[key child] l [Hget Hrec] _ IH]; simpl in *; auto.
  rewrite Hget.
  destruct (is_empty child); auto.
  now rewrite Hrec.
Qed.

Lemma inner_contains_refl data :
  wf data = true -> inner_contains data data = true.
Proof.
  induction data as [l IH] using PermissionTreeData_rect_children.
  intros Hwf. apply wf_Dict in Hwf as [Hnd Hwf]. simpl.
  apply contains_loop_refl.
  rewrite Forall_forall in *. intros [key child] Hin. simpl. split.
  - now apply dict_in_get.
  - apply (IH _ Hin). apply (Hwf _ Hin).
Qed.

(** C10. Contains reflexivity: for every tree [A], [A.contains(A)]
    returns true. *)
Theorem contains_reflexive (A : PermissionTree) :
  wf (_data A) = true -> contains A A = true.
Proof. apply inner_contains_refl. Qed.

(** ** intersect *)

Lemma intersect_body_other right acc k a k' :
  k' <> k ->
  dict_get k' (intersect_body inner_intersect right acc (k, a)) =
  dict_get k' acc.
Proof.
  intros Hne. unfold intersect_body.
  destruct (lookup k right); auto.
  destruct (is_empty a); now apply dict_get_set_other.
Qed.

Lemma intersect_body_same right acc k a :
  dict_get k (intersect_body inner_intersect right acc (k, a)) =
  intersect_upd right k a (dict_get k acc).
Proof.
  unfold intersect_body, intersect_upd.
  destruct (lookup k right); auto.
  destruct (is_empty a); apply dict_get_set_same.
Qed.

Lemma lookup_inner_intersect left right key :
  NoDup (dict_keys (items left)) ->
  lookup key (inner_intersect left right) =
    match lookup key left, lookup key right with
    | Some left_key, Some right_key =>
        Some (if is_empty left_key then right_key
              else inner_intersect left_key right_key)
    | _, _ => None
    end.
Proof.
  destruct left as [litems]. intros Hnd. unfold lookup. simpl.
  rewrite (loop_get _ _ (intersect_body inner_intersect right)
             (intersect_upd right)
             (intersect_body_other right) (intersect_body_same right)
             key litems [] Hnd).
  destruct (dict_get key litems); reflexivity.
Qed.

Lemma intersect_loop_empty_right l : forall acc,
  fold_left (intersect_body inner_intersect empty_dict) l acc = acc.
Proof.
  induction l as [|[k a] l IH]; intros acc; simpl; auto.
Qed.

Lemma inner_intersect_empty_right left :
  inner_intersect left empty_dict = empty_dict.
Proof.
  destruct left as [litems]. simpl.
  now rewrite intersect_loop_empty_right.
Qed.

(** C9. Intersect traversal rule: the result's keys come from [A]'s keys
    alone.  A key absent from [A] (present only in [B], or in neither)
    is not in the result; a key of [A] absent from [B] is dropped; a key
    whose child in [A] is the empty node maps to [B]'s whole subtree at
    that key; a key whose child in [A] is non-empty while [B]'s child is
    the empty node maps to the empty node; and where both children are
    non-empty the rule recurses. *)
Theorem intersect_traversal_rule (A B : PermissionTree) (key : string) :
  wf (_data A) = true ->
  (lookup key (_data A) = None ->
   lookup key (_data (intersect A B)) = None) /\
  (lookup key (_data B) = None ->
   lookup key (_data (intersect A B)) = None) /\
  (forall a b,
     lookup key (_data A) = Some a -> lookup key (_data B) = Some b ->
     is_empty a = true ->
     lookup key (_data (intersect A B)) = Some b) /\
  (forall a b,
     lookup key (_data A) = Some a -> lookup key (_data B) = Some b ->
     is_empty a = false -> is_empty b = true ->
     lookup key (_data (intersect A B)) = Some empty_dict) /\
  (forall a b,
     lookup key (_data A) = Some a -> lookup key (_data B) = Some b ->
     is_empty a = false ->
     lookup key (_data (intersect A B)) = Some (inner_intersect a b)).
Proof.
  intros Hwf. apply wf_NoDup in Hwf.
  unfold intersect. simpl.
  rewrite (lookup_inner_intersect (_data A) (_data B) key Hwf).
  repeat split.
  - intros ->. reflexivity.
  - intros ->. now destruct (lookup key (_data A)).
  - intros a b -> -> ->. reflexivity.
  - intros a b -> -> -> Hb. apply is_empty_eq in Hb. subst b.
    now rewrite inner_intersect_empty_right.
  - intros a b -> -> ->. reflexivity.
Qed.

(** ** grant *)

Lemma grant_walk_idempotent segments : forall data,
  grant_walk segments (grant_walk segments data) = grant_walk segments data.
Proof.
  induction segments as [|segment rest IH]; intros data; auto.
  assert (step : forall base,
    grant_walk (segment :: rest)
      (Dict (dict_set segment (grant_walk rest base) (items data))) =
    Dict (dict_set segment
            (grant_walk rest
               (match rest with [] => empty_dict | _ :: _ => grant_walk rest base end))
            (items data))).
  { intros base. cbn [grant_walk]. unfold lookup. cbn [items].
    rewrite dict_get_set_same.
    destruct rest; now rewrite dict_set_set. }
  assert (shape : exists base,
    (rest = [] -> base = empty_dict) /\
    grant_walk (segment :: rest) data =
    Dict (dict_set segment (grant_walk rest base) (items data))).
  { cbn [grant_walk].
    destruct (lookup segment data) as [child|]; [destruct rest|]; eauto.
    exists child. split; [discriminate | reflexivity]. }
  destruct shape as [base [last shape]]. rewrite shape, step.
  destruct rest as [|s rest'].
  - now rewrite (last eq_refl).
  - now rewrite IH.
Qed.

(** C8. Grant idempotence: granting the path [P] (a sequence of
    segments) twice in a row gives the same [check] result, for every
    dotted-path string, as granting it once. *)
Theorem grant_twice_check (T : PermissionTree) (P : list string) :
  forall Q : string, check (grant (grant T P) P) Q = check (grant T P) Q.
Proof.
  intros Q. unfold check, grant. simpl.
  now rewrite grant_walk_idempotent.
Qed.

(** ** union *)

Lemma union_table_get key litems :
  dict_get key
    (map (fun '(key, left_key) => (key, (left_key, inner_union left_key)))
         litems) =
  option_map (fun left_key => (left_key, inner_union left_key))
             (dict_get key litems).
Proof.
  induction litems as [|[k a] l IH]; simpl; auto.
  destruct (String.eqb key k); auto.
Qed.

Lemma union_right_loop_ext f g l : forall acc,
  (forall key, f key = g key) ->
  fold_left (union_right_body f) l acc = fold_left (union_right_body g) l acc.
Proof.
  intros acc Hfg. revert acc.
  induction l as [|[k b] l IH]; intros acc; simpl; auto.
  now rewrite Hfg, IH.
Qed.

(** [inner_union] in the shape of the source: the second loop reads
    [left[key]] and calls [inner_union(left[key], right[key])]. *)
Lemma inner_union_eq left right :
  inner_union left right =
  Dict (fold_left
          (union_right_body
             (fun key =>
                option_map (fun left_key => (left_key, inner_union left_key))
                           (lookup key left)))
          (items right)
          (fold_left (union_left_body inner_union right) (items left) [])).
Proof.
  destruct left as [litems]. cbn [inner_union items]. f_equal.
  apply union_right_loop_ext. intros key. apply union_table_get.
Qed.

Lemma union_left_body_other right acc k a k' :
  k' <> k ->
  dict_get k' (union_left_body inner_union right acc (k, a)) =
  dict_get k' acc.
Proof.
  intros Hne. unfold union_left_body.
  destruct (is_wildcard_at k acc); auto.
  destruct (lookup k right) as [b|]; [destruct (is_empty b)|];
    now apply dict_get_set_other.
Qed.

Lemma union_left_body_same right acc k a :
  dict_get k (union_left_body inner_union right acc (k, a)) =
  union_left_upd right k a (dict_get k acc).
Proof.
  unfold union_left_body, union_left_upd, is_wildcard_at, is_wildcard.
  destruct (dict_get k acc) as [v|] eqn:E; [destruct (is_empty v)|]; auto;
    (destruct (lookup k right) as [b|]; [destruct (is_empty b)|]);
    apply dict_get_set_same.
Qed.

Lemma union_right_body_other left acc k b k' :
  k' <> k ->
  dict_get k' (union_right_body (left_at left) acc (k, b)) = dict_get k' acc.
Proof.
  intros Hne. unfold union_right_body, left_at.
  destruct (is_wildcard_at k acc); auto.
  destruct (lookup k left) as [a|]; simpl; [destruct (is_empty a)|];
    now apply dict_get_set_other.
Qed.

Lemma union_right_body_same left acc k b :
  dict_get k (union_right_body (left_at left) acc (k, b)) =
  union_right_upd left k b (dict_get k acc).
Proof.
  unfold union_right_body, union_right_upd, is_wildcard_at, is_wildcard, left_at.
  destruct (dict_get k acc) as [v|] eqn:E; [destruct (is_empty v)|]; auto;
    (destruct (lookup k left) as [a|]; simpl; [destruct (is_empty a)|]);
    apply dict_get_set_same.
Qed.

(** The entry of the union at a key. *)
Lemma lookup_inner_union left right key :
  NoDup (dict_keys (items left)) -> NoDup (dict_keys (items right)) ->
  lookup key (inner_union left right) =
    match lookup key left, lookup key right with
    | None, None => None
    | Some left_key, None => Some left_key
    | None, Some right_key => Some right_key
    | Some left_key, Some right_key =>
        Some (if is_empty left_key || is_empty right_key then empty_dict
              else inner_union left_key right_key)
    end.
Proof.
  intros Hl Hr. rewrite inner_union_eq. unfold lookup at 1. cbn [items].
  fold (left_at left).
  rewrite (loop_get _ _ (union_right_body (left_at left))
             (union_right_upd left)
             (union_right_body_other left) (union_right_body_same left)
             key (items right) _ Hr).
  rewrite (loop_get _ _ (union_left_body inner_union right)
             (union_left_upd right)
             (union_left_body_other right) (union_left_body_same right)
             key (items left) [] Hl).
  fold (lookup key left). fold (lookup key right).
  unfold union_right_upd, union_left_upd.
  destruct (lookup key left) as [a|], (lookup key right) as [b|]; simpl; auto.
  destruct (is_empty b) eqn:Eb; simpl.
  - now rewrite orb_true_r.
  - rewrite orb_false_r.
    destruct (is_empty (inner_union a b)) eqn:Eu.
    + apply is_empty_eq in Eu. rewrite Eu. now destruct (is_empty a).
    + reflexivity.
Qed.

Lemma dict_set_not_nil {V} k (v : V) d : dict_set k v d <> [].
Proof.
  destruct d as [|[k0 v0] d]; simpl; [|destruct (String.eqb k k0)];
    discriminate.
Qed.

(** An iteration never leaves [result] empty. *)
Lemma union_left_body_nonempty right acc entry :
  union_left_body inner_union right acc entry <> [].
Proof.
  destruct entry as [k a]. unfold union_left_body.
  destruct (is_wildcard_at k acc) eqn:W.
  - destruct acc; [discriminate W | discriminate].
  - destruct (lookup k right) as [b|]; [destruct (is_empty b)|];
      apply dict_set_not_nil.
Qed.

Lemma union_right_body_nonempty f acc entry :
  union_right_body f acc entry <> [].
Proof.
  destruct entry as [k b]. unfold union_right_body.
  destruct (is_wildcard_at k acc) eqn:W.
  - destruct acc; [discriminate W | discriminate].
  - destruct (f k) as [[a ua]|]; [destruct (is_empty a)|];
      apply dict_set_not_nil.
Qed.

Lemma union_left_loop_nonempty right l : forall acc,
  acc <> [] -> fold_left (union_left_body inner_union right) l acc <> [].
Proof.
  induction l as [|e l IH]; intros acc Hacc; simpl; auto.
  apply IH, union_left_body_nonempty.
Qed.

Lemma union_right_loop_nonempty f l : forall acc,
  acc <> [] -> fold_left (union_right_body f) l acc <> [].
Proof.
  induction l as [|e l IH]; intros acc Hacc; simpl; auto.
  apply IH, union_right_body_nonempty.
Qed.

(** The union is the empty node only when both sides are. *)
Lemma is_empty_inner_union left right :
  is_empty (inner_union left right) = is_empty left && is_empty right.
Proof.
  rewrite inner_union_eq.
  destruct left as [[|[k a] l]], right as [[|[k' b] r]]; auto;
    unfold is_empty; cbn [items andb fold_left];
    match goal with |- match ?d with _ => _ end = _ =>
      assert (H : d <> []); [|now destruct d] end.
  - apply union_right_loop_nonempty, union_right_body_nonempty.
  - apply union_left_loop_nonempty, union_left_body_nonempty.
  - apply union_right_loop_nonempty, union_right_body_nonempty.
Qed.

Lemma check_walk_union_comm segments : forall left right,
  wf left = true -> wf right = true ->
  check_walk segments (inner_union left right) =
  check_walk segments (inner_union right left).
Proof.
  induction segments as [|segment rest IH]; intros left right Hl Hr.
  - simpl. rewrite !is_empty_inner_union. apply andb_comm.
  - cbn [check_walk].
    rewrite !lookup_inner_union by now apply wf_NoDup.
    destruct (lookup segment left) as [a|] eqn:Ea,
             (lookup segment right) as [b|] eqn:Eb; auto.
    + rewrite (orb_comm (is_empty b)).
      destruct (is_empty a || is_empty b); auto.
      apply IH; [exact (wf_lookup left segment a Hl Ea)
               | exact (wf_lookup right segment b Hr Eb)].
    + rewrite !is_empty_inner_union. apply andb_comm.
Qed.

(** C7. Union commutativity: for every pair of trees [A] and [B] and
    every dotted-path string [P], [A.union(B).check(P)] equals
    [B.union(A).check(P)]. *)
Theorem union_check_commutative (A B : PermissionTree) :
  wf (_data A) = true -> wf (_data B) = true ->
  forall P : string, check (union A B) P = check (union B A) P.
Proof.
  intros HA HB P. unfold check, union. simpl.
  now apply check_walk_union_comm.
Qed.

(** ** to_strings and the round trip *)

Lemma split_dot_no_dot s : has_dot s = false -> split_dot s = [s].
Proof.
  induction s as [|c s IH]; simpl; auto.
  intros H. apply orb_false_iff in H as [Hc Hs].
  now rewrite Hc, (IH Hs).
Qed.

Lemma split_dot_app s t :
  has_dot s = false -> split_dot (s ++ String dot t) = s :: split_dot t.
Proof.
  induction s as [|c s IH]; simpl.
  - reflexivity.
  - intros H. apply orb_false_iff in H as [Hc Hs].
    now rewrite Hc, (IH Hs).
Qed.

(** Splitting undoes joining, for segments without a dot. *)
Lemma split_dot_join_dot path :
  path <> [] -> Forall (fun s => has_dot s = false) path ->
  split_dot (join_dot path) = path.
Proof.
  induction path as [|s path IH]; [congruence|].
  intros _ H. inversion H as [|? ? Hs Hpath]; subst.
  destruct path as [|s' path].
  - now apply split_dot_no_dot.
  - change (join_dot (s :: s' :: path))
      with (s ++ String dot (join_dot (s' :: path)))%string.
    rewrite (split_dot_app s _ Hs). f_equal.
    apply IH; [discriminate | assumption].
Qed.

Lemma map_flat_map {A B C} (f : B -> C) (g : A -> list B) l :
  map f (flat_map g l) = flat_map (fun x => map f (g x)) l.
Proof.
  induction l as [|x l IH]; simpl; auto.
  now rewrite map_app, IH.
Qed.

Lemma flat_map_ext_Forall {A B} (f g : A -> list B) l :
  Forall (fun x => f x = g x) l -> flat_map f l = flat_map g l.
Proof.
  induction 1 as [|x l Hx _ IH]; simpl; auto. now rewrite Hx, IH.
Qed.

(** What [inner_to_strings] yields, through [leaves]. *)
Lemma inner_to_strings_leaves data : forall segments,
  inner_to_strings data segments =
    if is_empty data && negb (Nat.ltb 0 (List.length segments)) then []
    else map (fun path => join_dot (segments ++ path)) (leaves data).
Proof.
  induction data as [l IH] using PermissionTreeData_rect_children.
  intros segments. destruct l as [|e l].
  - simpl. destruct segments; simpl; auto. now rewrite app_nil_r.
  - assert (Hleaves : leaves (Dict (e :: l)) =
      flat_map (fun '(key, child) => map (cons key) (leaves child)) (e :: l))
      by reflexivity.
    rewrite Hleaves. clear Hleaves.
    change (is_empty (Dict (e :: l))) with false.
    change (inner_to_strings (Dict (e :: l)) segments)
      with (flat_map
              (fun '(key, child) => inner_to_strings child (segments ++ [key]))
              (e :: l)).
    cbn [andb]. revert IH. generalize (e :: l). clear e l. intros l IH.
    rewrite map_flat_map. apply flat_map_ext_Forall.
    rewrite Forall_forall in *. intros [key child] Hin.
    rewrite (IH _ Hin). simpl.
    replace (Nat.ltb 0 (List.length (segments ++ [key]))) with true.
    + rewrite andb_false_r, map_map. apply map_ext. intros path.
      now rewrite <- app_assoc.
    + symmetry. apply Nat.ltb_lt. rewrite length_app. simpl. lia.
Qed.

Lemma to_strings_leaves T :
  to_strings T =
    if is_empty (_data T) then [] else map join_dot (leaves (_data T)).
Proof.
  unfold to_strings. rewrite inner_to_strings_leaves. simpl.
  now rewrite andb_true_r.
Qed.

Lemma leaves_not_nil data : leaves data <> [].
Proof.
  induction data as [l IH] using PermissionTreeData_rect_children.
  destruct l as [|[key child] l]; simpl; [discriminate|].
  inversion IH as [|? ? Hchild _]; subst. simpl in Hchild.
  destruct (leaves child); [congruence | discriminate].
Qed.

Lemma leaves_nonempty_paths data :
  is_empty data = false -> Forall (fun path => path <> []) (leaves data).
Proof.
  destruct data as [[|e l]]; [discriminate|]. intros _.
  cbn [leaves]. generalize (e :: l). clear. intros l.
  rewrite Forall_forall. intros path Hin.
  apply in_flat_map in Hin as [[key child] [_ Hin]].
  apply in_map_iff in Hin as [p [<- _]]. discriminate.
Qed.

Lemma dot_free_Dict l :
  dot_free (Dict l) = true <->
  Forall (fun entry =>
            has_dot (fst entry) = false /\ dot_free (snd entry) = true) l.
Proof.
  simpl. rewrite forallb_forall, Forall_forall.
  split; intros H [key child] Hin; specialize (H _ Hin); simpl in *.
  - apply andb_true_iff in H as [H1 H2].
    now apply negb_true_iff in H1.
  - destruct H as [H1 H2]. now rewrite H1, H2.
Qed.

Lemma leaves_dot_free data :
  dot_free data = true ->
  Forall (Forall (fun s => has_dot s = false)) (leaves data).
Proof.
  induction data as [l IH] using PermissionTreeData_rect_children.
  intros Hdf. apply dot_free_Dict in Hdf.
  destruct l as [|e l]; [repeat constructor|].
  cbn [leaves]. revert IH Hdf. generalize (e :: l). clear. intros l IH Hdf.
  rewrite Forall_forall in *. intros path Hin.
  apply in_flat_map in Hin as [[key child] [Hentry Hin]].
  apply in_map_iff in Hin as [p [<- Hp]].
  destruct (Hdf _ Hentry) as [Hkey Hchild]. simpl in *.
  constructor; auto.
  specialize (IH _ Hentry Hchild). rewrite Forall_forall in IH. auto.
Qed.

(** Granting the joined strings is granting the segment sequences. *)
Lemma grant_many_join paths : forall T,
  Forall (fun path => path <> []) paths ->
  Forall (Forall (fun s => has_dot s = false)) paths ->
  grant_many_from_strings T (map join_dot paths) =
  mkPermissionTree (grant_all paths (_data T)).
Proof.
  unfold grant_many_from_strings, grant_all.
  induction paths as [|path paths IH]; intros T Hne Hdf.
  - now destruct T.
  - inversion Hne; inversion Hdf; subst. cbn [map fold_left].
    rewrite IH by assumption.
    unfold grant_from_string, grant. cbn [_data].
    now rewrite split_dot_join_dot.
Qed.

Lemma grant_walk_single key d :
  grant_walk [key] (Dict d) = Dict (dict_set key empty_dict d).
Proof.
  cbn [grant_walk]. now destruct (lookup key (Dict d)).
Qed.

Lemma grant_walk_deeper key path d :
  path <> [] ->
  grant_walk (key :: path) (Dict d) =
  Dict (dict_set key (grant_walk path (child_or_empty key d)) d).
Proof.
  intros Hne. cbn [grant_walk]. unfold lookup, child_or_empty. cbn [items].
  destruct (dict_get key d); [destruct path; [congruence|]|]; reflexivity.
Qed.

Lemma child_or_empty_set key v d : child_or_empty key (dict_set key v d) = v.
Proof. unfold child_or_empty. now rewrite dict_get_set_same. Qed.

(** Granting paths that all start with [key] rebuilds the child at
    [key], and touches nothing else. *)
Lemma grant_all_under key paths : forall d,
  paths <> [] -> Forall (fun path => path <> []) paths ->
  grant_all (map (cons key) paths) (Dict d) =
  Dict (dict_set key (grant_all paths (child_or_empty key d)) d).
Proof.
  induction paths as [|path paths IH]; intros d Hne Hall; [congruence|].
  inversion Hall as [|? ? Hpath Hpaths]; subst.
  unfold grant_all in *. cbn [map fold_left].
  rewrite (grant_walk_deeper key path d Hpath).
  destruct paths as [|path' paths]; [reflexivity|].
  rewrite IH by (auto; discriminate).
  now rewrite child_or_empty_set, dict_set_set.
Qed.

Lemma grant_all_app paths paths' data :
  grant_all (paths ++ paths') data = grant_all paths' (grant_all paths data).
Proof. apply fold_left_app. Qed.

(** Granting the leaves below a new key appends the child, whole. *)
Lemma grant_all_child key child d :
  grant_all (leaves child) empty_dict = child ->
  dict_get key d = None ->
  grant_all (map (cons key) (leaves child)) (Dict d) =
  Dict (d ++ [(key, child)]).
Proof.
  intros Hchild Hnew. destruct (is_empty child) eqn:E.
  - apply is_empty_eq in E. subst child. unfold grant_all.
    cbn [leaves empty_dict map fold_left].
    now rewrite grant_walk_single, (dict_set_new _ key empty_dict d Hnew).
  - rewrite grant_all_under.
    + unfold child_or_empty. rewrite Hnew, Hchild.
      now rewrite (dict_set_new _ key child d Hnew).
    + apply leaves_not_nil.
    + now apply leaves_nonempty_paths.
Qed.

Lemma grant_all_entries l : forall acc,
  NoDup (dict_keys (acc ++ l)) ->
  Forall (fun entry => grant_all (leaves (snd entry)) empty_dict = snd entry)
         l ->
  grant_all
    (flat_map (fun '(key, child) => map (cons key) (leaves child)) l)
    (Dict acc) =
  Dict (acc ++ l).
Proof.
  induction l as [|[key child] l IH]; intros acc Hnd Hall.
  - simpl. now rewrite app_nil_r.
  - inversion Hall as [|? ? Hchild Hrest]; subst. simpl in Hchild.
    cbn [flat_map]. rewrite grant_all_app, grant_all_child; auto.
    + replace (acc ++ (key, child) :: l) with ((acc ++ [(key, child)]) ++ l)
        in * by now rewrite <- app_assoc.
      now apply IH.
    + apply dict_get_none. unfold dict_keys in *.
      rewrite map_app in Hnd. simpl in Hnd.
      apply NoDup_remove_2 in Hnd. intros Hin. apply Hnd.
      apply in_or_app. now left.
Qed.

(** Granting a tree's leaves into the empty node rebuilds the tree. *)
Lemma grant_all_leaves data :
  wf data = true -> grant_all (leaves data) empty_dict = data.
Proof.
  induction data as [l IH] using PermissionTreeData_rect_children.
  intros Hwf. apply wf_Dict in Hwf as [Hnd Hwf].
  destruct l as [|e l]; [reflexivity|].
  change (leaves (Dict (e :: l)))
    with (flat_map (fun '(key, child) => map (cons key) (leaves child))
                   (e :: l)).
  apply (grant_all_entries (e :: l) []); auto.
  rewrite Forall_forall in *. intros entry Hin.
  apply (IH _ Hin), (Hwf _ Hin).
Qed.

Lemma grant_to_strings_rebuilds T :
  wf (_data T) = true -> dot_free (_data T) = true ->
  grant_many_from_strings fresh (to_strings T) = T.
Proof.
  intros Hwf Hdf. rewrite to_strings_leaves.
  destruct T as [data]. cbn [_data] in *.
  destruct (is_empty data) eqn:E.
  - apply is_empty_eq in E. now subst.
  - rewrite grant_many_join.
    + simpl. now rewrite grant_all_leaves.
    + now apply leaves_nonempty_paths.
    + now apply leaves_dot_free.
Qed.

(** C6. Round trip: for every tree [T] whose segment labels contain no
    dot, granting every string of [T.to_strings()] into a fresh empty
    tree gives a tree whose [check] answers every dotted-path string as
    [T]'s does. *)
Theorem to_strings_round_trip (T : PermissionTree) :
  wf (_data T) = true -> dot_free (_data T) = true ->
  forall P : string,
    check (grant_many_from_strings fresh (to_strings T)) P = check T P.
Proof.
  intros Hwf Hdf P. now rewrite grant_to_strings_rebuilds.
Qed.

(** ** revoke *)

(** Where the final segment's text occurs at no earlier position, the
    walk of the source is the walk by position. *)
Lemma revoke_walk_by_position_eq segments : forall data,
  ~ In (List.last segments EmptyString) (removelast segments) ->
  revoke_walk (List.last segments EmptyString) segments data =
  revoke_walk_by_position segments data.
Proof.
  induction segments as [|segment rest IH]; intros data Hfresh; auto.
  cbn [revoke_walk revoke_walk_by_position].
  destruct (lookup segment data) as [child|]; auto.
  destruct rest as [|segment' rest'].
  - simpl. now rewrite String.eqb_refl.
  - change (List.last (segment :: segment' :: rest') EmptyString)
      with (List.last (segment' :: rest') EmptyString) in *.
    change (removelast (segment :: segment' :: rest'))
      with (segment :: removelast (segment' :: rest')) in Hfresh.
    destruct (String.eqb segment (List.last (segment' :: rest') EmptyString))
      eqn:E.
    + apply String.eqb_eq in E. exfalso. apply Hfresh. now left.
    + rewrite IH; auto. intros Hin. apply Hfresh. now right.
Qed.

Lemma dict_get_del_same {V} key (d : dict V) :
  NoDup (dict_keys d) -> dict_get key (dict_del key d) = None.
Proof.
  induction d as [|[k v] d IH]; simpl; auto.
  intros Hnd. inversion Hnd as [|? ? Hnotin Hnd']; subst.
  destruct (String.eqb key k) eqn:E; simpl.
  - apply String.eqb_eq in E. subst. now apply dict_get_none.
  - rewrite E. auto.
Qed.

Lemma dict_del_nil {V} key (d : dict V) :
  dict_get key d <> None ->
  (dict_del key d = [] <-> List.length d = 1).
Proof.
  destruct d as [|[k v] d]; simpl; [congruence|].
  destruct (String.eqb key k) eqn:E.
  - intros _. destruct d; simpl; split; congruence.
  - intros H. destruct d as [|e d]; simpl in *; [congruence|].
    split; discriminate.
Qed.

(** After a successful [revoke_walk], the walk of [check] on the same
    segments is true exactly when the deleted key was the only key of
    its node. *)
Lemma check_after_revoke final segments : forall data data' site,
  wf data = true ->
  revoke_walk final segments data = (true, data') ->
  revoke_site final segments data = Some site ->
  check_walk segments data' = Nat.eqb (List.length (items site)) 1.
Proof.
  induction segments as [|segment rest IH];
    intros data data' site Hwf Hrev Hsite; [discriminate|].
  cbn [revoke_walk revoke_site check_walk] in *.
  destruct (lookup segment data) as [child|] eqn:Eget; [|discriminate].
  destruct (String.eqb segment final).
  - inversion Hrev; inversion Hsite; subst. clear Hrev Hsite.
    unfold lookup. cbn [items].
    rewrite dict_get_del_same by now apply wf_NoDup.
    unfold is_empty. cbn [items].
    assert (Hin : dict_get segment (items site) <> None)
      by (unfold lookup in Eget; congruence).
    pose proof (dict_del_nil segment (items site) Hin) as Hnil.
    destruct (dict_del segment (items site)) eqn:Edel.
    + symmetry. apply Nat.eqb_eq. now apply Hnil.
    + symmetry. apply Nat.eqb_neq. intros H. apply Hnil in H. discriminate.
  - destruct (revoke_walk final rest child) as [answer child'] eqn:Erec.
    inversion Hrev; subst. clear Hrev.
    unfold lookup. cbn [items]. rewrite dict_get_set_same.
    apply (IH child child' site); auto.
    exact (wf_lookup data segment child Hwf Eget).
Qed.

(** C4. Revoke contract, at the path ["a.b.a"] on
    [{"a": {"b": {"a": {}}}}]: the final segment's text is also the
    first segment's, and [revoke] deletes the key ["a"] of the root,
    leaving the empty root, where the contract deletes the final
    segment's key from its parent and leaves [{"a": {"b": {}}}]. *)
Theorem revoke_repeated_final_segment :
  revoke tree_a_b_a "a.b.a" = (true, fresh) /\
  revoke_by_position tree_a_b_a "a.b.a" = (true, tree_a_b).
Proof. split; reflexivity. Qed.

(** C2. Revoke postcondition, at the path ["a.b"] on
    [{"a": {"b": {}}, "x": {}}]: [revoke] answers true and leaves
    [{"a": {}, "x": {}}], whose node at ["a"] is now the empty node, so
    [check("a.b")] is still true afterwards (and [check("a.c")], false
    before, is true as well). *)
Theorem revoke_only_child_still_granted :
  fst (revoke tree_a_b_x "a.b") = true /\
  check (snd (revoke tree_a_b_x "a.b")) "a.b" = true /\
  check tree_a_b_x "a.c" = false /\
  check (snd (revoke tree_a_b_x "a.b")) "a.c" = true.
Proof. repeat split; reflexivity. Qed.

(** ** intersect and contains against check *)

(** C1. Intersection conservatism, at [A = {"a": {"b": {}}}],
    [B = {"a": {}}] and the path ["a.c"]: the intersection is
    [{"a": {}}] and grants ["a.c"], which [A] does not grant. *)
Theorem intersect_grants_more_than_left :
  intersect tree_a_b tree_a = tree_a /\
  check (intersect tree_a_b tree_a) "a.c" = true /\
  check tree_a_b "a.c" = false.
Proof. repeat split; reflexivity. Qed.

(** C3. Superset law, at [A = {"x": {}}], the empty tree [B] and the
    path ["y"]: [A.contains(B)] is true and [B.check("y")] is true,
    but [A.check("y")] is false. *)
Theorem contains_empty_root_unsound :
  contains tree_x fresh = true /\
  check fresh "y" = true /\
  check tree_x "y" = false.
Proof. repeat split; reflexivity. Qed.

Lemma contains_loop_In a l key b_key :
  contains_loop inner_contains a l = true -> In (key, b_key) l ->
  exists a_key,
    lookup key a = Some a_key /\
    (is_empty a_key = true \/
     (is_empty b_key = false /\ inner_contains a_key b_key = true)).
Proof.
  induction l as [|[k bk] l IH]; simpl; [tauto|].
  intros Hloop [Hin|Hin].
  - inversion Hin; subst. clear IH.
    destruct (lookup key a) as [a_key|]; [|discriminate].
    exists a_key. split; auto.
    destruct (is_empty a_key); auto.
    destruct (is_empty b_key); [discriminate|].
    destruct (inner_contains a_key b_key); [auto | discriminate].
  - apply IH; auto.
    destruct (lookup k a) as [ak|]; [|discriminate].
    destruct (is_empty ak); auto.
    destruct (is_empty bk); [discriminate|].
    destruct (inner_contains ak bk); [auto | discriminate].
Qed.

(** The superset law below the root, and at a root of [B] that is not
    empty unless [A]'s is. *)
Lemma check_walk_contains segments : forall a b,
  inner_contains a b = true ->
  (is_empty b = true -> is_empty a = true) ->
  check_walk segments b = true -> check_walk segments a = true.
Proof.
  induction segments as [|segment rest IH]; intros a b Hc Hroot Hb.
  - simpl in *. auto.
  - cbn [check_walk] in Hb.
    destruct (lookup segment b) as [b_key|] eqn:Eb.
    + destruct b as [bitems]. simpl in Hc.
      apply dict_get_in in Eb.
      destruct (contains_loop_In _ _ _ _ Hc Eb) as [a_key [Ea Hcase]].
      cbn [check_walk]. rewrite Ea.
      destruct Hcase as [Hwild | [Hb_key Hrec]].
      * now apply check_walk_empty.
      * apply (IH a_key b_key); auto. congruence.
    + now apply check_walk_empty, Hroot.
Qed.

(** ** Instances *)

Lemma contains_reflexive_witness :
  wf (_data first_tree) = true /\ contains first_tree first_tree = true.
Proof.
  split; [reflexivity | apply (contains_reflexive first_tree); reflexivity].
Defined.

Lemma union_check_commutative_witness :
  wf (_data first_tree) = true /\ wf (_data second_tree) = true /\
  check (union first_tree second_tree) "auth.users.read" =
  check (union second_tree first_tree) "auth.users.read".
Proof.
  split; [reflexivity | split; [reflexivity|]].
  apply (union_check_commutative first_tree second_tree); reflexivity.
Defined.

Lemma to_strings_round_trip_witness :
  wf (_data first_tree) = true /\ dot_free (_data first_tree) = true /\
  check (grant_many_from_strings fresh (to_strings first_tree))
        "auth.groups.read" =
  check first_tree "auth.groups.read".
Proof.
  split; [reflexivity | split; [reflexivity|]].
  apply (to_strings_round_trip first_tree); reflexivity.
Defined.

Lemma intersect_traversal_rule_witness :
  wf (_data tree_a_b) = true /\
  lookup "a" (_data (intersect tree_a_b tree_a)) = Some empty_dict.
Proof.
  split; [reflexivity|].
  apply (proj1 (proj2 (proj2 (proj2
           (intersect_traversal_rule tree_a_b tree_a "a" eq_refl))))
           (Dict [("b", empty_dict)]) empty_dict);
    reflexivity.
Defined.

(** * Further properties of the methods *)

(** ** check_any, check_all *)

(** [check_any] answers true exactly when some listed permission is
    granted; on no permission at all it answers false. *)
Theorem check_any_true_iff (T : PermissionTree) (permissions : list string) :
  check_any T permissions = true <->
  exists permission, In permission permissions /\ check T permission = true.
Proof.
  induction permissions as [|p rest IH]; simpl.
  - split; [discriminate | intros [q [[] _]]].
  - destruct (check T p) eqn:E.
    + split; auto. intros _. exists p. auto.
    + rewrite IH. split.
      * intros [q [Hin Hq]]. exists q. auto.
      * intros [q [[<-|Hin] Hq]]; [congruence|]. exists q. auto.
Qed.

(** [check_all] answers true exactly when every listed permission is
    granted; on no permission at all it answers true. *)
Theorem check_all_true_iff (T : PermissionTree) (permissions : list string) :
  check_all T permissions = true <->
  forall permission, In permission permissions -> check T permission = true.
Proof.
  induction permissions as [|p rest IH]; simpl.
  - split; [intros _ q [] | reflexivity].
  - destruct (check T p) eqn:E; simpl.
    + rewrite IH. split.
      * intros H q [<-|Hin]; auto.
      * intros H q Hin. apply H. now right.
    + split; [discriminate|]. intros H. rewrite <- E. apply H. now left.
Qed.

(** ** grant against check *)

Lemma split_dot_app_dot s t :
  split_dot (s ++ String dot t) = split_dot s ++ split_dot t.
Proof.
  induction s as [|c s IH]; simpl.
  - reflexivity.
  - rewrite IH. destruct (Ascii.eqb c dot); [reflexivity|].
    destruct (split_dot s) eqn:E; [|reflexivity].
    now apply split_dot_not_nil in E.
Qed.

(** What one step of [grant_walk] writes. *)
Lemma grant_walk_shape segment rest data :
  exists base,
    (rest = [] -> base = empty_dict) /\
    grant_walk (segment :: rest) data =
    Dict (dict_set segment (grant_walk rest base) (items data)).
Proof.
  cbn [grant_walk].
  destruct (lookup segment data) as [child|]; [destruct rest|]; eauto.
  exists child. split; [discriminate | reflexivity].
Qed.

Lemma check_walk_grant_walk segments : forall more data,
  segments <> [] ->
  check_walk (segments ++ more) (grant_walk segments data) = true.
Proof.
  induction segments as [|segment rest IH]; intros more data Hne;
    [congruence|].
  destruct (grant_walk_shape segment rest data) as [base [Hlast ->]].
  cbn [app check_walk]. unfold lookup. cbn [items].
  rewrite dict_get_set_same.
  destruct rest as [|segment' rest'].
  - rewrite (Hlast eq_refl). now apply check_walk_empty.
  - apply IH. discriminate.
Qed.

(** After [grant_from_string(P)], [check(P)] is true, whatever the tree
    was and whatever the string is. *)
Theorem grant_then_check (T : PermissionTree) (P : string) :
  check (grant_from_string T P) P = true.
Proof.
  unfold check, grant_from_string, grant. cbn [_data].
  rewrite <- (app_nil_r (split_dot P)) at 1.
  apply check_walk_grant_walk, split_dot_not_nil.
Qed.

(** After [grant_from_string(P)], every path below [P] is granted too:
    [check(P + "." + Q)] is true for every string [Q]. *)
Theorem grant_then_check_below (T : PermissionTree) (P Q : string) :
  check (grant_from_string T P) (P ++ "." ++ Q) = true.
Proof.
  unfold check, grant_from_string, grant. cbn [_data].
  change (P ++ "." ++ Q)%string with (P ++ String dot Q)%string.
  rewrite split_dot_app_dot.
  apply check_walk_grant_walk, split_dot_not_nil.
Qed.

Lemma grant_walk_not_empty segments data :
  segments <> [] -> is_empty (grant_walk segments data) = false.
Proof.
  destruct segments as [|segment rest]; [congruence|]. intros _.
  destruct (grant_walk_shape segment rest data) as [base [_ ->]].
  unfold is_empty. cbn [items].
  destruct (dict_set segment (grant_walk rest base) (items data)) eqn:E;
    [|reflexivity].
  now apply dict_set_not_nil in E.
Qed.

Lemma check_walk_grant_deeper segments : forall more data,
  more <> [] ->
  check_walk segments (grant_walk (segments ++ more) data) = false.
Proof.
  induction segments as [|segment rest IH]; intros more data Hne.
  - cbn [app check_walk]. now apply grant_walk_not_empty.
  - cbn [app].
    destruct (grant_walk_shape segment (rest ++ more) data) as [base [_ ->]].
    cbn [check_walk]. unfold lookup. cbn [items].
    rewrite dict_get_set_same. now apply IH.
Qed.

(** Granting a longer path narrows its prefixes: after
    [grant_from_string(P + "." + Q)], [check(P)] is false, also when
    [P] was granted as a whole before. *)
Theorem grant_below_denies_prefix (T : PermissionTree) (P Q : string) :
  check (grant_from_string T (P ++ "." ++ Q)) P = false.
Proof.
  unfold check, grant_from_string, grant. cbn [_data].
  change (P ++ "." ++ Q)%string with (P ++ String dot Q)%string.
  rewrite split_dot_app_dot.
  apply check_walk_grant_deeper, split_dot_not_nil.
Qed.

Lemma check_walk_grant_other segments segments' data :
  List.hd EmptyString segments' <> List.hd EmptyString segments ->
  segments <> [] -> segments' <> [] ->
  check_walk segments' (grant_walk segments data) =
  match lookup (List.hd EmptyString segments') data with
  | Some _ => check_walk segments' data
  | None => false
  end.
Proof.
  intros Hhd Hne Hne'.
  destruct segments as [|segment rest]; [congruence|].
  destruct segments' as [|segment' rest']; [congruence|].
  cbn [List.hd] in *.
  assert (Hnot : is_empty (grant_walk (segment :: rest) data) = false)
    by now apply grant_walk_not_empty.
  destruct (grant_walk_shape segment rest data) as [base [_ E]].
  rewrite E in *. cbn [check_walk]. unfold lookup. cbn [items].
  rewrite (dict_get_set_other _ segment segment' _ _ Hhd).
  destruct (dict_get segment' (items data)); auto.
Qed.

(** Granting leaves the other branches alone: on a tree whose root is
    not empty, [grant_from_string(P)] changes no [check(Q)] for a [Q]
    whose first segment differs from [P]'s. *)
Theorem grant_keeps_other_branches (T : PermissionTree) (P Q : string) :
  is_empty (_data T) = false ->
  first_segment Q <> first_segment P ->
  check (grant_from_string T P) Q = check T Q.
Proof.
  intros Hroot Hhd. unfold check, grant_from_string, grant. cbn [_data].
  rewrite (check_walk_grant_other _ _ _ Hhd)
    by apply split_dot_not_nil.
  destruct (split_dot Q) as [|q rest] eqn:E;
    [now apply split_dot_not_nil in E|].
  cbn [List.hd check_walk].
  destruct (lookup q (_data T)); auto.
Qed.

(** The first grant into a fresh tree withdraws the root wildcard: after
    [PermissionTree().grant_from_string(P)], [check(Q)] is false for
    every [Q] whose first segment differs from [P]'s. *)
Theorem grant_fresh_denies_other_branches (P Q : string) :
  first_segment Q <> first_segment P ->
  check (grant_from_string fresh P) Q = false.
Proof.
  intros Hhd. unfold check, grant_from_string, grant. cbn [_data].
  rewrite (check_walk_grant_other _ _ _ Hhd)
    by apply split_dot_not_nil.
  reflexivity.
Qed.

(** ** revoke, revoke_any, revoke_all *)

Lemma revoke_walk_false_unchanged final segments : forall data data',
  revoke_walk final segments data = (false, data') -> data' = data.
Proof.
  induction segments as [|segment rest IH]; intros data data' H;
    cbn [revoke_walk] in H; [discriminate|].
  destruct (lookup segment data) as [child|] eqn:Eget; [|congruence].
  destruct (String.eqb segment final); [discriminate|].
  destruct (revoke_walk final rest child) as [answer child'] eqn:Erec.
  inversion H; subst. rewrite (IH child child' Erec).
  destruct data as [l]. unfold lookup in Eget. cbn [items] in *.
  now rewrite (dict_set_get_same _ segment child l Eget).
Qed.

Lemma revoke_false_unchanged T P :
  fst (revoke T P) = false -> snd (revoke T P) = T.
Proof.
  unfold revoke.
  destruct (revoke_walk _ _ _) as [answer data'] eqn:E. cbn [fst snd].
  intros ->. apply revoke_walk_false_unchanged in E. subst.
  now destruct T.
Qed.

(** A [revoke] that answers false has changed nothing in the tree. *)
Theorem revoke_false_keeps_tree (T : PermissionTree) (P : string) :
  fst (revoke T P) = false -> snd (revoke T P) = T.
Proof. apply revoke_false_unchanged. Qed.

Lemma last_In (segments : list string) :
  segments <> [] -> In (List.last segments EmptyString) segments.
Proof.
  induction segments as [|s [|s' rest] IH]; [congruence | now left |].
  intros _. right. apply IH. discriminate.
Qed.

Lemma revoke_walk_again final segments : forall data data',
  In final segments ->
  wf data = true ->
  revoke_walk final segments data = (true, data') ->
  revoke_walk final segments data' = (false, data').
Proof.
  induction segments as [|segment rest IH]; intros data data' Hin Hwf H;
    [destruct Hin|].
  cbn [revoke_walk] in *.
  destruct (lookup segment data) as [child|] eqn:Eget; [|discriminate].
  destruct (String.eqb segment final) eqn:E.
  - inversion H; subst. unfold lookup. cbn [items].
    now rewrite dict_get_del_same by now apply wf_NoDup.
  - destruct (revoke_walk final rest child) as [answer child'] eqn:Erec.
    inversion H; subst. unfold lookup. cbn [items].
    rewrite dict_get_set_same.
    rewrite (IH child child'); auto.
    + now rewrite dict_set_set.
    + destruct Hin as [->|Hin]; auto.
      now rewrite String.eqb_refl in E.
    + exact (wf_lookup data segment child Hwf Eget).
Qed.

(** A path revoked with success cannot be revoked again: the second
    [revoke] of the same string answers false and changes nothing. *)
Theorem revoke_twice (T : PermissionTree) (P : string) :
  wf (_data T) = true ->
  fst (revoke T P) = true ->
  revoke (snd (revoke T P)) P = (false, snd (revoke T P)).
Proof.
  unfold revoke. intros Hwf.
  destruct (revoke_walk _ _ (_data T)) as [answer data'] eqn:E.
  cbn [fst snd _data]. intros ->.
  rewrite (revoke_walk_again _ _ (_data T) data'); auto.
  apply last_In, split_dot_not_nil.
Qed.

(** On a fresh tree there is nothing to revoke: every [revoke] answers
    false. *)
Theorem revoke_fresh_false (P : string) : revoke fresh P = (false, fresh).
Proof.
  unfold revoke.
  destruct (split_dot P) as [|segment rest] eqn:E;
    [now apply split_dot_not_nil in E|].
  reflexivity.
Qed.

Lemma revoke_any_false_unchanged permissions : forall T,
  fst (revoke_any T permissions) = false ->
  snd (revoke_any T permissions) = T /\
  forall P, In P permissions -> fst (revoke T P) = false.
Proof.
  induction permissions as [|p rest IH]; intros T; cbn [revoke_any].
  - intros _. split; [reflexivity | intros P []].
  - destruct (revoke T p) as [answer T'] eqn:E.
    destruct answer; [discriminate|]. intros H.
    assert (HT : T' = T).
    { pose proof (revoke_false_unchanged T p) as U.
      rewrite E in U. now apply U. }
    subst T'. destruct (IH T H) as [Hsame Hall]. split; auto.
    intros P [<-|Hin]; [now rewrite E | auto].
Qed.

(** [revoke_any] answers true exactly when one of the listed paths can
    be revoked from the tree as it stands; when it answers false the
    tree is unchanged. *)
Theorem revoke_any_true_iff (T : PermissionTree) (permissions : list string) :
  (fst (revoke_any T permissions) = true <->
   exists P, In P permissions /\ fst (revoke T P) = true) /\
  (fst (revoke_any T permissions) = false ->
   snd (revoke_any T permissions) = T).
Proof.
  split; [|apply revoke_any_false_unchanged].
  split.
  - intros H. induction permissions as [|p rest IH]; cbn [revoke_any] in H;
      [discriminate|].
    destruct (revoke T p) as [answer T'] eqn:E. destruct answer.
    + exists p. split; [now left | now rewrite E].
    + assert (HT : T' = T).
      { pose proof (revoke_false_unchanged T p) as U.
        rewrite E in U. now apply U. }
      subst T'. destruct (IH H) as [P [Hin HP]]. exists P. split; auto.
      now right.
  - intros [P [Hin HP]].
    destruct (fst (revoke_any T permissions)) eqn:E; [reflexivity|].
    destruct (revoke_any_false_unchanged permissions T E) as [_ Hall].
    rewrite (Hall P Hin) in HP. discriminate.
Qed.


(** ** names and to_strings *)

Lemma inner_names_entry key child l :
  In (key, child) l ->
  In key (inner_names (Dict l)) /\
  incl (inner_names child) (inner_names (Dict l)).
Proof.
  intros Hin. cbn [inner_names]. split.
  - apply in_flat_map. exists (key, child). split; [assumption | now left].
  - intros s Hs. apply in_flat_map. exists (key, child).
    split; [assumption | now right].
Qed.

Lemma dict_set_In {V} key (v : V) d : In (key, v) (dict_set key v d).
Proof.
  induction d as [|[k v0] d IH]; simpl; [now left|].
  destruct (String.eqb key k); [now left | now right].
Qed.

Lemma inner_names_grant_walk segments : forall data s,
  In s segments -> In s (inner_names (grant_walk segments data)).
Proof.
  induction segments as [|segment rest IH]; intros data s Hin;
    [destruct Hin|].
  destruct (grant_walk_shape segment rest data) as [base [_ ->]].
  destruct (inner_names_entry segment (grant_walk rest base) _
              (dict_set_In segment (grant_walk rest base) (items data)))
    as [Hkey Hchild].
  destruct Hin as [<-|Hin]; [assumption|].
  apply Hchild, IH, Hin.
Qed.

(** After [grant(P)], [names()] yields every segment of [P]. *)
Theorem names_after_grant (T : PermissionTree) (P : list string) :
  forall segment, In segment P -> In segment (names (grant T P)).
Proof.
  intros segment Hin. unfold names, grant. cbn [_data].
  now apply inner_names_grant_walk.
Qed.

Lemma leaves_Dict_cons e l :
  leaves (Dict (e :: l)) =
  flat_map (fun '(key, child) => map (cons key) (leaves child)) (e :: l).
Proof. reflexivity. Qed.

Lemma leaves_In_cases path data :
  In path (leaves data) ->
  (path = [] /\ is_empty data = true) \/
  exists key child rest,
    path = key :: rest /\ In (key, child) (items data) /\
    In rest (leaves child).
Proof.
  destruct data as [[|e l]].
  - simpl. intros [<-|[]]. now left.
  - rewrite leaves_Dict_cons. intros Hin. right.
    apply in_flat_map in Hin as [[key child] [Hentry Hin]].
    apply in_map_iff in Hin as [rest [<- Hrest]].
    exists key, child, rest. auto.
Qed.

Lemma leaves_segments_in_names data : forall path s,
  In path (leaves data) -> In s path -> In s (inner_names data).
Proof.
  induction data as [l IH] using PermissionTreeData_rect_children.
  intros path s Hpath Hs.
  destruct (leaves_In_cases _ _ Hpath)
    as [[-> _] | [key [child [rest [-> [Hentry Hrest]]]]]];
    [destruct Hs|].
  cbn [items] in Hentry.
  destruct (inner_names_entry key child l Hentry) as [Hkey Hchild].
  destruct Hs as [<-|Hs]; [assumption|].
  apply Hchild. rewrite Forall_forall in IH.
  exact (IH _ Hentry rest s Hrest Hs).
Qed.

Lemma check_walk_leaves data : forall path,
  wf data = true -> In path (leaves data) -> check_walk path data = true.
Proof.
  induction data as [l IH] using PermissionTreeData_rect_children.
  intros path Hwf Hpath.
  destruct (leaves_In_cases _ _ Hpath)
    as [[-> Hempty] | [key [child [rest [-> [Hentry Hrest]]]]]];
    [exact Hempty|].
  cbn [items] in Hentry. apply wf_Dict in Hwf as [Hnd Hwf].
  cbn [check_walk]. unfold lookup. cbn [items].
  rewrite (dict_in_get _ key child l Hnd Hentry).
  rewrite Forall_forall in IH, Hwf.
  exact (IH _ Hentry rest (Hwf _ Hentry) Hrest).
Qed.

(** What [to_strings] yields, with the segments behind each string. *)
Lemma to_strings_In T P :
  dot_free (_data T) = true ->
  In P (to_strings T) ->
  is_empty (_data T) = false /\ In (split_dot P) (leaves (_data T)).
Proof.
  intros Hdf. rewrite to_strings_leaves.
  destruct (is_empty (_data T)) eqn:E; [intros []|].
  intros Hin. apply in_map_iff in Hin as [path [<- Hpath]].
  split; [reflexivity|].
  rewrite split_dot_join_dot; auto.
  - pose proof (leaves_nonempty_paths _ E) as Hne.
    rewrite Forall_forall in Hne. auto.
  - pose proof (leaves_dot_free _ Hdf) as Hd.
    rewrite Forall_forall in Hd. auto.
Qed.

(** Every string [to_strings()] yields is granted: [check] is true on
    it. *)
Theorem to_strings_all_granted (T : PermissionTree) (P : string) :
  wf (_data T) = true -> dot_free (_data T) = true ->
  In P (to_strings T) -> check T P = true.
Proof.
  intros Hwf Hdf Hin. unfold check.
  apply check_walk_leaves; auto.
  now apply to_strings_In.
Qed.

(** Every segment of every string [to_strings()] yields is among the
    labels [names()] yields. *)
Theorem to_strings_segments_in_names (T : PermissionTree) (P : string) :
  dot_free (_data T) = true ->
  In P (to_strings T) ->
  forall segment, In segment (split_dot P) -> In segment (names T).
Proof.
  intros Hdf Hin segment Hs. unfold names.
  apply (leaves_segments_in_names (_data T) (split_dot P)); auto.
  now apply to_strings_In.
Qed.

Lemma join_dot_cons_char c seg segs :
  join_dot (String c seg :: segs) = String c (join_dot (seg :: segs)).
Proof. destruct segs; reflexivity. Qed.

(** Joining undoes splitting, for every string. *)
Lemma join_dot_split_dot s : join_dot (split_dot s) = s.
Proof.
  induction s as [|c s IH]; [reflexivity|]. cbn [split_dot].
  destruct (split_dot s) as [|seg segs] eqn:E;
    [now apply split_dot_not_nil in E|].
  destruct (Ascii.eqb c dot) eqn:Ec.
  - apply Ascii.eqb_eq in Ec. subst c.
    change (join_dot (EmptyString :: seg :: segs))
      with (String dot (join_dot (seg :: segs))).
    now rewrite IH.
  - now rewrite join_dot_cons_char, IH.
Qed.

Lemma leaves_grant_walk segments : forall data,
  segments <> [] -> In segments (leaves (grant_walk segments data)).
Proof.
  induction segments as [|segment rest IH]; intros data Hne; [congruence|].
  destruct (grant_walk_shape segment rest data) as [base [Hlast ->]].
  pose proof (dict_set_In segment (grant_walk rest base) (items data)) as Hin.
  destruct (dict_set segment (grant_walk rest base) (items data))
    as [|e l] eqn:E; [destruct Hin|].
  rewrite leaves_Dict_cons. apply in_flat_map.
  exists (segment, grant_walk rest base). split; [assumption|].
  apply in_map. destruct rest as [|segment' rest'].
  - rewrite (Hlast eq_refl). now left.
  - apply IH. discriminate.
Qed.

(** After [grant_from_string(P)], [to_strings()] yields [P] itself. *)
Theorem to_strings_after_grant (T : PermissionTree) (P : string) :
  In P (to_strings (grant_from_string T P)).
Proof.
  rewrite to_strings_leaves. unfold grant_from_string, grant. cbn [_data].
  rewrite grant_walk_not_empty by apply split_dot_not_nil.
  rewrite <- (join_dot_split_dot P) at 1.
  apply in_map, leaves_grant_walk, split_dot_not_nil.
Qed.

(** ** union, intersect and contains *)

(** A loop that writes each entry of [l] as it stands copies [l]. *)
Lemma copy_loop (body : dict PermissionTreeData -> string * PermissionTreeData
                        -> dict PermissionTreeData) l : forall acc,
  NoDup (dict_keys (acc ++ l)) ->
  (forall acc key child,
     In (key, child) l -> dict_get key acc = None ->
     body acc (key, child) = dict_set key child acc) ->
  fold_left body l acc = acc ++ l.
Proof.
  induction l as [|[key child] l IH]; intros acc Hnd Hbody; simpl.
  - now rewrite app_nil_r.
  - assert (Hnew : dict_get key acc = None).
    { apply dict_get_none. unfold dict_keys in *.
      rewrite map_app in Hnd. simpl in Hnd.
      apply NoDup_remove_2 in Hnd. intros Hin. apply Hnd.
      apply in_or_app. now left. }
    rewrite Hbody by (auto; now left).
    rewrite (dict_set_new _ key child acc Hnew).
    replace (acc ++ (key, child) :: l) with ((acc ++ [(key, child)]) ++ l)
      in * by now rewrite <- app_assoc.
    apply IH; auto.
    intros acc' k c Hin. apply Hbody. now right.
Qed.

Lemma is_wildcard_at_new key (acc : dict PermissionTreeData) :
  dict_get key acc = None -> is_wildcard_at key acc = false.
Proof. unfold is_wildcard_at. now intros ->. Qed.

Lemma inner_union_empty_left right :
  wf right = true -> inner_union empty_dict right = right.
Proof.
  intros Hwf. rewrite inner_union_eq. destruct right as [ritems].
  cbn [items empty_dict fold_left]. f_equal.
  apply (copy_loop _ ritems []); [now apply wf_NoDup in Hwf|].
  intros acc key child _ Hnew. unfold union_right_body.
  now rewrite (is_wildcard_at_new key acc Hnew).
Qed.

Lemma inner_union_empty_right left :
  wf left = true -> inner_union left empty_dict = left.
Proof.
  intros Hwf. rewrite inner_union_eq. destruct left as [litems].
  cbn [items empty_dict fold_left]. f_equal.
  apply (copy_loop _ litems []); [now apply wf_NoDup in Hwf|].
  intros acc key child _ Hnew. unfold union_left_body.
  now rewrite (is_wildcard_at_new key acc Hnew).
Qed.

(** The empty tree is neutral for [union], on either side: the result is
    the other tree, node for node (although [check] on the empty tree
    grants every path). *)
Theorem union_fresh (T : PermissionTree) :
  wf (_data T) = true -> union fresh T = T /\ union T fresh = T.
Proof.
  intros Hwf. unfold union, fresh. cbn [_data].
  rewrite inner_union_empty_left, inner_union_empty_right by assumption.
  now destruct T.
Qed.

Lemma check_walk_union_sound segments : forall left right,
  wf left = true -> wf right = true ->
  check_walk segments (inner_union left right) = true ->
  check_walk segments left = true \/ check_walk segments right = true.
Proof.
  induction segments as [|segment rest IH]; intros left right Hl Hr.
  - simpl. rewrite is_empty_inner_union. intros H.
    apply andb_true_iff in H. tauto.
  - cbn [check_walk].
    rewrite lookup_inner_union by now apply wf_NoDup.
    destruct (lookup segment left) as [a|] eqn:Ea,
             (lookup segment right) as [b|] eqn:Eb; auto.
    + destruct (is_empty a) eqn:Ha; [intros _; left;
        now apply check_walk_empty|].
      destruct (is_empty b) eqn:Hb; [intros _; right;
        now apply check_walk_empty|].
      cbn [orb]. apply IH.
      * exact (wf_lookup left segment a Hl Ea).
      * exact (wf_lookup right segment b Hr Eb).
    + rewrite is_empty_inner_union. intros H.
      apply andb_true_iff in H. tauto.
Qed.

Lemma check_walk_union_left segments : forall left right,
  wf left = true -> wf right = true ->
  is_empty left = false ->
  check_walk segments left = true ->
  check_walk segments (inner_union left right) = true.
Proof.
  induction segments as [|segment rest IH]; intros left right Hl Hr Hne.
  - simpl. congruence.
  - cbn [check_walk].
    rewrite lookup_inner_union by now apply wf_NoDup.
    destruct (lookup segment left) as [a|] eqn:Ea; [|congruence].
    destruct (lookup segment right) as [b|] eqn:Eb; auto.
    destruct (is_empty a) eqn:Ha; [intros _; now apply check_walk_empty|].
    destruct (is_empty b) eqn:Hb; [intros _; now apply check_walk_empty|].
    cbn [orb]. apply IH; auto.
    + exact (wf_lookup left segment a Hl Ea).
    + exact (wf_lookup right segment b Hr Eb).
Qed.

(** On two trees with non-empty roots, the union grants exactly the
    paths that one side or the other grants. *)
Theorem union_check_orb (A B : PermissionTree) (P : string) :
  wf (_data A) = true -> wf (_data B) = true ->
  is_empty (_data A) = false -> is_empty (_data B) = false ->
  check (union A B) P = check A P || check B P.
Proof.
  intros HA HB NA NB. unfold check, union. cbn [_data].
  destruct (check_walk (split_dot P) (inner_union (_data A) (_data B)))
    eqn:E.
  - symmetry. apply orb_true_iff.
    now apply check_walk_union_sound.
  - symmetry. apply orb_false_iff. split.
    + destruct (check_walk (split_dot P) (_data A)) eqn:EA; auto.
      rewrite check_walk_union_left in E; auto.
    + destruct (check_walk (split_dot P) (_data B)) eqn:EB; auto.
      rewrite check_walk_union_comm, check_walk_union_left in E; auto.
Qed.

Lemma contains_loop_intro a l :
  Forall (fun entry =>
            exists a_key,
              lookup (fst entry) a = Some a_key /\
              (is_empty a_key = true \/
               (is_empty (snd entry) = false /\
                inner_contains a_key (snd entry) = true))) l ->
  contains_loop inner_contains a l = true.
Proof.
  induction 1 as [|[key b_key] l [a_key [Hget Hcase]] _ IH]; simpl in *; auto.
  rewrite Hget. destruct (is_empty a_key) eqn:Ha; auto.
  destruct Hcase as [Hcase | [Hb Hrec]]; [discriminate|].
  now rewrite Hb, Hrec.
Qed.

Lemma inner_contains_union_left a : forall b,
  wf a = true -> wf b = true ->
  inner_contains (inner_union a b) a = true.
Proof.
  induction a as [l IH] using PermissionTreeData_rect_children.
  intros b Ha Hb. cbn [inner_contains]. apply contains_loop_intro.
  pose proof (wf_NoDup _ Ha) as Hnd. pose proof (wf_NoDup _ Hb) as Hndb.
  apply wf_Dict in Ha as [_ Hchildren].
  rewrite Forall_forall in *. intros [key a_key] Hin. cbn [fst snd].
  rewrite lookup_inner_union by assumption.
  unfold lookup at 1. cbn [items] in *.
  rewrite (dict_in_get _ key a_key l Hnd Hin).
  pose proof (Hchildren _ Hin) as Hwa. cbn [snd] in Hwa.
  destruct (lookup key b) as [b_key|] eqn:Eb.
  - eexists. split; [reflexivity|].
    destruct (is_empty a_key) eqn:Ea; [now left|].
    destruct (is_empty b_key) eqn:Ebk; [now left|].
    right. split; auto. cbn [orb].
    apply (IH _ Hin); auto. exact (wf_lookup b key b_key Hb Eb).
  - exists a_key. split; [reflexivity|].
    destruct (is_empty a_key) eqn:Ea; [now left|].
    right. split; auto. now apply inner_contains_refl.
Qed.

Lemma inner_contains_union_right b : forall a,
  wf a = true -> wf b = true ->
  inner_contains (inner_union a b) b = true.
Proof.
  induction b as [l IH] using PermissionTreeData_rect_children.
  intros a Ha Hb. cbn [inner_contains]. apply contains_loop_intro.
  pose proof (wf_NoDup _ Ha) as Hnda. pose proof (wf_NoDup _ Hb) as Hnd.
  apply wf_Dict in Hb as [_ Hchildren].
  rewrite Forall_forall in *. intros [key b_key] Hin. cbn [fst snd].
  rewrite lookup_inner_union by assumption.
  cbn [items] in *.
  assert (Hget : lookup key (Dict l) = Some b_key)
    by exact (dict_in_get _ key b_key l Hnd Hin).
  rewrite Hget.
  pose proof (Hchildren _ Hin) as Hwb. cbn [snd] in Hwb.
  destruct (lookup key a) as [a_key|] eqn:Ea.
  - eexists. split; [reflexivity|].
    destruct (is_empty a_key) eqn:Eak; [now left|].
    destruct (is_empty b_key) eqn:Ebk; [now left|].
    right. split; auto. cbn [orb].
    apply (IH _ Hin); auto. exact (wf_lookup a key a_key Ha Ea).
  - exists b_key. split; [reflexivity|].
    destruct (is_empty b_key) eqn:Ebk; [now left|].
    right. split; auto. now apply inner_contains_refl.
Qed.

(** The union contains both of its operands. *)
Theorem union_contains_operands (A B : PermissionTree) :
  wf (_data A) = true -> wf (_data B) = true ->
  contains (union A B) A = true /\ contains (union A B) B = true.
Proof.
  intros HA HB. unfold contains, union. cbn [_data]. split.
  - now apply inner_contains_union_left.
  - now apply inner_contains_union_right.
Qed.



(** The empty tree is contained in every tree, and contains only the
    empty tree (although [check] on it grants every path). *)
Theorem contains_fresh (T : PermissionTree) :
  contains T fresh = true /\ contains fresh T = is_empty (_data T).
Proof.
  split; [reflexivity|].
  unfold contains. destruct T as [[[|[key child] l]]]; reflexivity.
Qed.

(** With a non-empty root on the right (or an empty one on the left),
    what [contains] accepts is sound for [check]. *)
Theorem contains_sound_for_check (A B : PermissionTree) (P : string) :
  (is_empty (_data B) = true -> is_empty (_data A) = true) ->
  contains A B = true -> check B P = true -> check A P = true.
Proof.
  intros Hroot Hc. unfold check.
  now apply check_walk_contains.
Qed.

Lemma inner_intersect_empty_left right :
  inner_intersect empty_dict right = empty_dict.
Proof. reflexivity. Qed.

(** Intersecting with the empty tree, on either side, gives the empty
    tree (on which [check] grants every path). *)
Theorem intersect_fresh (T : PermissionTree) :
  intersect T fresh = fresh /\ intersect fresh T = fresh.
Proof.
  unfold intersect, fresh. cbn [_data].
  now rewrite inner_intersect_empty_right.
Qed.

Lemma check_walk_intersect_complete segments : forall left right,
  wf left = true ->
  check_walk segments left = true -> check_walk segments right = true ->
  check_walk segments (inner_intersect left right) = true.
Proof.
  induction segments as [|segment rest IH]; intros left right Hwf Hl Hr.
  - simpl in *. apply is_empty_eq in Hl. now subst.
  - cbn [check_walk] in *.
    rewrite lookup_inner_intersect by now apply wf_NoDup.
    destruct (lookup segment left) as [a|] eqn:Ea.
    + destruct (lookup segment right) as [b|] eqn:Eb.
      * destruct (is_empty a); auto.
        apply IH; auto. exact (wf_lookup left segment a Hwf Ea).
      * apply is_empty_eq in Hr. subst right.
        now rewrite inner_intersect_empty_right.
    + apply is_empty_eq in Hl. now subst.
Qed.

(** The intersection grants every path that both trees grant. *)
Theorem intersect_grants_common (A B : PermissionTree) (P : string) :
  wf (_data A) = true ->
  check A P = true -> check B P = true -> check (intersect A B) P = true.
Proof.
  intros Hwf. unfold check, intersect. cbn [_data].
  now apply check_walk_intersect_complete.
Qed.

Lemma inner_intersect_self data :
  wf data = true -> inner_intersect data data = data.
Proof.
  induction data as [l IH] using PermissionTreeData_rect_children.
  intros Hwf. pose proof (wf_NoDup _ Hwf) as Hnd.
  apply wf_Dict in Hwf as [_ Hchildren]. cbn [inner_intersect items] in *.
  f_equal. apply (copy_loop _ l []); [assumption|].
  intros acc key child Hin _. unfold intersect_body, lookup. cbn [items].
  rewrite (dict_in_get _ key child l Hnd Hin).
  destruct (is_empty child); [reflexivity|].
  rewrite Forall_forall in *.
  pose proof (IH _ Hin (Hchildren _ Hin)) as Hself. cbn [snd] in Hself.
  now rewrite Hself.
Qed.

Lemma keep_loop (body : dict PermissionTreeData -> string * PermissionTreeData
                        -> dict PermissionTreeData) acc l :
  (forall entry, In entry l -> body acc entry = acc) ->
  fold_left body l acc = acc.
Proof.
  induction l as [|entry l IH]; intros Hbody; simpl; auto.
  rewrite Hbody by now left. apply IH. intros e He. apply Hbody. now right.
Qed.

Lemma inner_union_self data :
  wf data = true -> inner_union data data = data.
Proof.
  induction data as [l IH] using PermissionTreeData_rect_children.
  intros Hwf. pose proof (wf_NoDup _ Hwf) as Hnd.
  apply wf_Dict in Hwf as [_ Hchildren].
  rewrite Forall_forall in *.
  rewrite inner_union_eq. cbn [items] in *. f_equal.
  assert (Hfirst :
    fold_left (union_left_body inner_union (Dict l)) l [] = l).
  { apply (copy_loop _ l []); [assumption|].
    intros acc key child Hin Hnew. unfold union_left_body, lookup.
    cbn [items].
    rewrite (is_wildcard_at_new key acc Hnew).
    rewrite (dict_in_get _ key child l Hnd Hin).
    destruct (is_empty child) eqn:E.
    - apply is_empty_eq in E. now subst.
    - pose proof (IH _ Hin (Hchildren _ Hin)) as Hself.
      cbn [snd] in Hself. now rewrite Hself. }
  rewrite Hfirst. apply keep_loop.
  intros [key child] Hin. unfold union_right_body, is_wildcard_at, lookup.
  cbn [items].
  rewrite (dict_in_get _ key child l Hnd Hin). cbn [option_map].
  destruct (is_empty child) eqn:E; [reflexivity|].
  pose proof (IH _ Hin (Hchildren _ Hin)) as Hself. cbn [snd] in Hself.
  rewrite Hself. apply dict_set_get_same. now apply dict_in_get.
Qed.

(** [union] and [intersect] of a tree with itself give the tree back,
    node for node. *)
Theorem union_intersect_self (T : PermissionTree) :
  wf (_data T) = true -> union T T = T /\ intersect T T = T.
Proof.
  intros Hwf. unfold union, intersect.
  rewrite inner_union_self, inner_intersect_self by assumption.
  now destruct T.
Qed.

(** ** grant_many_from_strings *)

(** The string granted last is granted: after
    [grant_many_from_strings(Ps + [P])], [check(P)] is true (an earlier
    string of the list may have been narrowed by a later one). *)
Theorem grant_many_last_granted
  (T : PermissionTree) (Ps : list string) (P : string) :
  check (grant_many_from_strings T (Ps ++ [P])) P = true.
Proof.
  unfold grant_many_from_strings. rewrite fold_left_app. cbn [fold_left].
  unfold check, grant_from_string, grant. cbn [_data].
  rewrite <- (app_nil_r (split_dot P)) at 1.
  apply check_walk_grant_walk, split_dot_not_nil.
Qed.

(** ** Instances of the further properties *)

Lemma grant_keeps_other_branches_witness :
  is_empty (_data tree_a_b_x) = false /\
  first_segment "x.y" <> first_segment "a.c" /\
  check (grant_from_string tree_a_b_x "a.c") "x.y" = check tree_a_b_x "x.y".
Proof.
  split; [reflexivity | split; [discriminate|]].
  apply (grant_keeps_other_branches tree_a_b_x "a.c" "x.y");
    [reflexivity | discriminate].
Defined.

Lemma grant_fresh_denies_other_branches_witness :
  first_segment "b" <> first_segment "a.c" /\
  check (grant_from_string fresh "a.c") "b" = false.
Proof.
  split; [discriminate|].
  apply (grant_fresh_denies_other_branches "a.c" "b"). discriminate.
Defined.

Lemma revoke_false_keeps_tree_witness :
  fst (revoke tree_a_b_x "a.c") = false /\
  snd (revoke tree_a_b_x "a.c") = tree_a_b_x.
Proof.
  split; [reflexivity|].
  apply (revoke_false_keeps_tree tree_a_b_x "a.c"). reflexivity.
Defined.

Lemma revoke_twice_witness :
  wf (_data tree_a_b_x) = true /\
  fst (revoke tree_a_b_x "a.b") = true /\
  revoke (snd (revoke tree_a_b_x "a.b")) "a.b" =
  (false, snd (revoke tree_a_b_x "a.b")).
Proof.
  split; [reflexivity | split; [reflexivity|]].
  apply (revoke_twice tree_a_b_x "a.b"); reflexivity.
Defined.


Lemma names_after_grant_witness :
  In "users" ["auth"; "users"; "create"] /\
  In "users" (names (grant fresh ["auth"; "users"; "create"])).
Proof.
  split; [simpl; tauto|].
  apply (names_after_grant fresh ["auth"; "users"; "create"] "users").
  simpl. tauto.
Defined.

Lemma to_strings_all_granted_witness :
  wf (_data first_tree) = true /\ dot_free (_data first_tree) = true /\
  In "auth.groups.read" (to_strings first_tree) /\
  check first_tree "auth.groups.read" = true.
Proof.
  split; [reflexivity | split; [reflexivity|]].
  split; [simpl; tauto|].
  apply (to_strings_all_granted first_tree "auth.groups.read");
    [reflexivity | reflexivity | simpl; tauto].
Defined.

Lemma to_strings_segments_in_names_witness :
  dot_free (_data first_tree) = true /\
  In "auth.groups.read" (to_strings first_tree) /\
  In "groups" (split_dot "auth.groups.read") /\
  In "groups" (names first_tree).
Proof.
  split; [reflexivity|]. split; [simpl; tauto|]. split; [simpl; tauto|].
  apply (to_strings_segments_in_names first_tree "auth.groups.read");
    [reflexivity | simpl; tauto | simpl; tauto].
Defined.

Lemma union_fresh_witness :
  wf (_data first_tree) = true /\
  union fresh first_tree = first_tree /\ union first_tree fresh = first_tree.
Proof.
  split; [reflexivity|]. apply (union_fresh first_tree). reflexivity.
Defined.

Lemma union_check_orb_witness :
  wf (_data first_tree) = true /\ wf (_data second_tree) = true /\
  is_empty (_data first_tree) = false /\
  is_empty (_data second_tree) = false /\
  check (union first_tree second_tree) "auth.groups.create" =
  check first_tree "auth.groups.create" ||
  check second_tree "auth.groups.create".
Proof.
  repeat (split; [reflexivity|]).
  apply (union_check_orb first_tree second_tree "auth.groups.create");
    reflexivity.
Defined.

Lemma union_contains_operands_witness :
  wf (_data first_tree) = true /\ wf (_data second_tree) = true /\
  contains (union first_tree second_tree) first_tree = true /\
  contains (union first_tree second_tree) second_tree = true.
Proof.
  repeat (split; [reflexivity|]).
  apply (union_contains_operands first_tree second_tree); reflexivity.
Defined.


Lemma contains_sound_for_check_witness :
  (is_empty (_data tree_a_b) = true -> is_empty (_data tree_a) = true) /\
  contains tree_a tree_a_b = true /\
  check tree_a_b "a.b" = true /\
  check tree_a "a.b" = true.
Proof.
  split; [discriminate|]. repeat (split; [reflexivity|]).
  apply (contains_sound_for_check tree_a tree_a_b "a.b");
    [discriminate | reflexivity | reflexivity].
Defined.

Lemma intersect_grants_common_witness :
  wf (_data first_tree) = true /\
  check first_tree "auth.permissions.create" = true /\
  check second_tree "auth.permissions.create" = true /\
  check (intersect first_tree second_tree) "auth.permissions.create" = true.
Proof.
  repeat (split; [reflexivity|]).
  apply (intersect_grants_common first_tree second_tree
           "auth.permissions.create"); reflexivity.
Defined.

Lemma union_intersect_self_witness :
  wf (_data first_tree) = true /\
  union first_tree first_tree = first_tree /\
  intersect first_tree first_tree = first_tree.
Proof.
  split; [reflexivity|]. apply (union_intersect_self first_tree).
  reflexivity.
Defined.
